(** * bilby: result container, evidence bookkeeping, priors, sampler and
    checkpoint contracts.

    The sources of this repository are its documentation, prior files and a
    tutorial notebook; the Python modules of the engine ([bilby.core.result],
    [bilby.core.prior], [bilby.core.sampler]) are not among them.  Those parts
    are modelled from the spec, each such definition says so in its doc
    comment, and the documented output of docs/bilby-output.txt is transcribed
    as data. *)

From Stdlib Require Import ZArith Ascii Floats Reals Lra.
From stdpp Require Import base list strings pretty gmap.

Set Warnings "-inexact-float,-register-all".

(* ------------------------------------------------------------------ *)
(** * The documented result file *)
(* ------------------------------------------------------------------ *)

Module Listing.

(** The value column of one line of [ddls outdir/label_result.h5]. *)
Inductive ddls_value :=
| DList
| DDict
| DFloat (f : float)
| DInt (z : Z)
| DStr (s : string)
| DBool (b : bool)
| DFrame (r c : Z).

Local Open Scope float_scope.

(** docs/bilby-output.txt, lines 25-79: the listing of a result file written
    by [run_sampler], one pair per line (path, value). *)
Definition documented_listing : list (string * ddls_value) := [
  ("/fixed_parameter_keys", DList);
  ("/fixed_parameter_keys/i0", DStr "dec");
  ("/fixed_parameter_keys/i1", DStr "psi");
  ("/fixed_parameter_keys/i2", DStr "a_2");
  ("/fixed_parameter_keys/i3", DStr "a_1");
  ("/fixed_parameter_keys/i4", DStr "geocent_time");
  ("/fixed_parameter_keys/i5", DStr "phi_jl");
  ("/fixed_parameter_keys/i6", DStr "ra");
  ("/fixed_parameter_keys/i7", DStr "phase");
  ("/fixed_parameter_keys/i8", DStr "phi_12");
  ("/fixed_parameter_keys/i9", DStr "tilt_2");
  ("/fixed_parameter_keys/i10", DStr "tilt_1");
  ("/injection_parameters", DDict);
  ("/injection_parameters/a_1", DFloat 0.4);
  ("/injection_parameters/a_2", DFloat 0.3);
  ("/injection_parameters/dec", DFloat (-1.2108));
  ("/injection_parameters/geocent_time", DFloat 1126259642.413);
  ("/injection_parameters/iota", DFloat 0.4);
  ("/injection_parameters/luminosity_distance", DFloat 4000.0);
  ("/injection_parameters/mass_1", DFloat 36.0);
  ("/injection_parameters/mass_2", DFloat 29.0);
  ("/injection_parameters/phase", DFloat 1.3);
  ("/injection_parameters/phi_12", DFloat 1.7);
  ("/injection_parameters/phi_jl", DFloat 0.3);
  ("/injection_parameters/psi", DFloat 2.659);
  ("/injection_parameters/ra", DFloat 1.375);
  ("/injection_parameters/reference_frequency", DFloat 50.0);
  ("/injection_parameters/tilt_1", DFloat 0.5);
  ("/injection_parameters/tilt_2", DFloat 1.0);
  ("/injection_parameters/waveform_approximant", DStr "IMRPhenomPv2");
  ("/kwargs", DDict);
  ("/kwargs/bound", DStr "multi");
  ("/kwargs/dlogz", DFloat 0.1);
  ("/kwargs/nlive", DInt 1000);
  ("/kwargs/sample", DStr "rwalk");
  ("/kwargs/update_interval", DInt 600);
  ("/kwargs/verbose", DBool true);
  ("/kwargs/walks", DInt 20);
  ("/label", DStr "basic_tutorial");
  ("/log_bayes_factor", DFloat 29.570224130853056);
  ("/logz", DFloat (-12042.875089354413));
  ("/logzerr", DFloat 0.040985337772488764);
  ("/noise_logz", DFloat (-12072.445313485267));
  ("/outdir", DStr "outdir");
  ("/parameter_labels", DList);
  ("/parameter_labels/i0", DStr "$d_L$");
  ("/parameter_labels/i1", DStr "$m_2$");
  ("/parameter_labels/i2", DStr "$m_1$");
  ("/parameter_labels/i3", DStr "$\iota$");
  ("/posterior", DFrame 4 15073);
  ("/search_parameter_keys", DList);
  ("/search_parameter_keys/i0", DStr "luminosity_distance");
  ("/search_parameter_keys/i1", DStr "mass_2");
  ("/search_parameter_keys/i2", DStr "mass_1");
  ("/search_parameter_keys/i3", DStr "iota")
].

Close Scope float_scope.

Fixpoint listing_lookup (p : string) (l : list (string * ddls_value))
  : option ddls_value :=
  match l with
  | [] => None
  | (p', v) :: l' => if String.eqb p p' then Some v else listing_lookup p l'
  end.

Definition documented_float (p : string) : option float :=
  match listing_lookup p documented_listing with
  | Some (DFloat f) => Some f
  | _ => None
  end.

End Listing.

(* ------------------------------------------------------------------ *)
(** * The persistent Result container *)
(* ------------------------------------------------------------------ *)

Module Container.

(** A scalar Python value as stored in the container. *)
Inductive pyval :=
| PFloat (f : float)
| PInt (z : Z)
| PStr (s : string)
| PBool (b : bool).

(** The posterior [pandas.DataFrame]: column names and rows of samples. *)
Record frame := mk_frame {
  columns : list string;
  rows : list (list float)
}.

(** A [bilby.core.result.Result], with the fields of spec section 3. *)
Record Result := mk_result {
  search_parameter_keys : list string;
  fixed_parameter_keys : list string;
  posterior : frame;
  log_evidence : float;
  log_evidence_error : float;
  log_noise_evidence : float;
  log_bayes_factor : float;
  sampler_kwargs : list (string * pyval);
  injection_parameters : option (list (string * pyval));
  label : string;
  outdir : string
}.

Inductive group_kind := GList | GDict.

(** A node of the hierarchical binary document. *)
Inductive h5node :=
| H5Scalar (v : pyval)
| H5None
| H5Frame (df : frame)
| H5Group (k : group_kind) (children : list (string * h5node)).

Fixpoint assoc (k : string) (l : list (string * h5node)) : option h5node :=
  match l with
  | [] => None
  | (k', v) :: l' => if String.eqb k k' then Some v else assoc k l'
  end.

(** The key of the [i]-th element of a stored list: [i0], [i1], ... *)
Definition item_key (i : nat) : string := "i" +:+ pretty (N.of_nat i).

Section Lists.
Context {A : Type}.

Fixpoint enc_items (f : A -> h5node) (i : nat) (l : list A)
  : list (string * h5node) :=
  match l with
  | [] => []
  | x :: l' => (item_key i, f x) :: enc_items f (S i) l'
  end.

Definition enc_list (f : A -> h5node) (l : list A) : h5node :=
  H5Group GList (enc_items f 0 l).

(** Loading a list reads [i0 .. i(n-1)] for the [n] children of the group. *)
Fixpoint dec_items (g : h5node -> option A) (ch : list (string * h5node))
    (i n : nat) : option (list A) :=
  match n with
  | O => Some []
  | S n' =>
      v ← assoc (item_key i) ch;
      x ← g v;
      xs ← dec_items g ch (S i) n';
      Some (x :: xs)
  end.

Definition dec_list (g : h5node -> option A) (n : h5node) : option (list A) :=
  match n with
  | H5Group GList ch => dec_items g ch 0 (length ch)
  | _ => None
  end.

End Lists.

Definition enc_str (s : string) : h5node := H5Scalar (PStr s).

Definition dec_str (n : h5node) : option string :=
  match n with
  | H5Scalar (PStr s) => Some s
  | _ => None
  end.

Definition enc_dict (d : list (string * pyval)) : h5node :=
  H5Group GDict (map (fun '(k, v) => (k, H5Scalar v)) d).

Fixpoint dec_entries (ch : list (string * h5node))
  : option (list (string * pyval)) :=
  match ch with
  | [] => Some []
  | (k, H5Scalar v) :: ch' => d ← dec_entries ch'; Some ((k, v) :: d)
  | _ :: _ => None
  end.

Definition dec_dict (n : h5node) : option (list (string * pyval)) :=
  match n with
  | H5Group GDict ch => dec_entries ch
  | _ => None
  end.

Definition enc_opt_dict (d : option (list (string * pyval))) : h5node :=
  match d with
  | None => H5None
  | Some d' => enc_dict d'
  end.

Definition dec_opt_dict (n : h5node)
  : option (option (list (string * pyval))) :=
  match n with
  | H5None => Some None
  | _ => Some <$> dec_dict n
  end.

Definition enc_float (f : float) : h5node := H5Scalar (PFloat f).

Definition dec_float (n : h5node) : option float :=
  match n with
  | H5Scalar (PFloat f) => Some f
  | _ => None
  end.

(** Modelled from the spec: [Result.save_to_file] (the deepdish save of the
    Result's attribute dictionary) is not in the sources.  One dictionary of
    named datasets keyed by the field names of spec section 6, in that order;
    lists are stored as groups of items [i0], [i1], ... as in the listing of
    docs/bilby-output.txt (that example listing shows the key names [logz],
    [logzerr], [noise_logz] and [kwargs], and a [parameter_labels] entry, in
    place of the spec's names). *)
Definition save_result (r : Result) : h5node :=
  H5Group GDict [
    ("posterior", H5Frame (posterior r));
    ("log_evidence", enc_float (log_evidence r));
    ("log_evidence_error", enc_float (log_evidence_error r));
    ("log_noise_evidence", enc_float (log_noise_evidence r));
    ("log_bayes_factor", enc_float (log_bayes_factor r));
    ("search_parameter_keys", enc_list enc_str (search_parameter_keys r));
    ("fixed_parameter_keys", enc_list enc_str (fixed_parameter_keys r));
    ("injection_parameters", enc_opt_dict (injection_parameters r));
    ("sampler_kwargs", enc_dict (sampler_kwargs r));
    ("label", enc_str (label r));
    ("outdir", enc_str (outdir r))
  ].

(** Modelled from the spec: the loading half of [read_in_result] (deepdish
    load, then [Result(...)] of the dictionary) is not in the sources.  A
    missing key or a dataset of the wrong shape is an error ([None]), never a
    partially populated Result. *)
Definition read_result (n : h5node) : option Result :=
  match n with
  | H5Group GDict ch =>
      post ← assoc "posterior" ch;
      df ← (match post with H5Frame df => Some df | _ => None end);
      lz ← assoc "log_evidence" ch ≫= dec_float;
      lze ← assoc "log_evidence_error" ch ≫= dec_float;
      nlz ← assoc "log_noise_evidence" ch ≫= dec_float;
      lbf ← assoc "log_bayes_factor" ch ≫= dec_float;
      sk ← assoc "search_parameter_keys" ch ≫= dec_list dec_str;
      fk ← assoc "fixed_parameter_keys" ch ≫= dec_list dec_str;
      inj ← assoc "injection_parameters" ch ≫= dec_opt_dict;
      kw ← assoc "sampler_kwargs" ch ≫= dec_dict;
      lab ← assoc "label" ch ≫= dec_str;
      od ← assoc "outdir" ch ≫= dec_str;
      Some (mk_result sk fk df lz lze nlz lbf kw inj lab od)
  | _ => None
  end.

(** The dataset a top-level key addresses. *)
Definition field_at (k : string) (n : h5node) : option h5node :=
  match n with
  | H5Group _ ch => assoc k ch
  | _ => None
  end.

Definition top_keys (n : h5node) : list string :=
  match n with
  | H5Group _ ch => map fst ch
  | _ => []
  end.

End Container.


(* ------------------------------------------------------------------ *)
(** * Evidence bookkeeping *)
(* ------------------------------------------------------------------ *)

Module Evidence.

(** The evidence fields of a Result: (log evidence, log noise evidence,
    log Bayes factor); the documented file stores the first two under [logz]
    and [noise_logz]. *)
Definition evidence := (float * float * float)%type.

(** Modelled from the spec: the evidence bookkeeping at the end of
    [run_sampler] is not in the sources.  The spec defines
    [log_bayes_factor] as [log_evidence - log_noise_evidence]; a backend run
    on the likelihood ratio ([use_ratio]) reports the Bayes factor as its
    evidence, and the log evidence is then the sum of it and the noise
    evidence, which is the relation the documented output satisfies bit for
    bit. *)
Definition bookkeep_evidence (use_ratio : bool) (backend_logz noise : float)
  : evidence :=
  if use_ratio then ((backend_logz + noise)%float, noise, backend_logz)
  else (backend_logz, noise, (backend_logz - noise)%float).

(** The evidence fields of the documented result file. *)
Definition documented_evidence : option evidence :=
  lz ← Listing.documented_float "/logz";
  nz ← Listing.documented_float "/noise_logz";
  b ← Listing.documented_float "/log_bayes_factor";
  Some (lz, nz, b).

End Evidence.

(* ------------------------------------------------------------------ *)
(** * Priors and the prior collection *)
(* ------------------------------------------------------------------ *)

Module Priors.

Local Open Scope R_scope.

(** Modelled from the spec: [bilby.core.prior] is not in the sources.  The
    prior classes are those the prior files use: [Uniform(minimum, maximum)],
    [Sine] and [Cosine] with their default bounds [0, pi] and
    [-pi/2, pi/2], the tabulated priors [UniformComovingVolume] and
    [AlignedSpin], both subclasses of [Interped(xx, yy)], which keeps the
    grid [xx] and the cumulative table [YY] of its density, and
    [DeltaFunction(peak)], the fixed prior a plain value becomes (as in the
    notebook's [priors[key] = value]). *)
Inductive Prior :=
| Uniform (minimum maximum : R)
| Sine
| Cosine
| Interped (xx YY : list R)
| DeltaFunction (peak : R).

(** A fixed prior is the degenerate one. *)
Definition is_fixed (p : Prior) : bool :=
  match p with
  | DeltaFunction _ => true
  | _ => false
  end.

Fixpoint increasing (l : list R) : Prop :=
  match l with
  | a :: ((b :: _) as l') => a < b /\ increasing l'
  | _ => True
  end.

(** [scipy.interpolate.interp1d(xs, ys)] (linear) at [x], for [x] in the
    range of the grid [xs]: on the first segment [[x0, x1]] with [x <= x1]
    the value is [slope * (x - x0) + y0]. *)
Fixpoint interp (xs ys : list R) (x : R) : R :=
  match xs, ys with
  | x0 :: xs', y0 :: ys' =>
      match xs', ys' with
      | x1 :: _, y1 :: _ =>
          if Rle_dec x x1 then (y1 - y0) / (x1 - x0) * (x - x0) + y0
          else interp xs' ys' x
      | _, _ => y0
      end
  | _, _ => 0
  end.

(** A Uniform prior needs [minimum < maximum]; a tabulated prior a strictly
    increasing grid with a strictly increasing cumulative table from 0 to 1
    of the same length. *)
Definition valid_prior (p : Prior) : Prop :=
  match p with
  | Uniform a b => a < b
  | Interped xx YY =>
      length xx = length YY /\ (2 <= length xx)%nat /\
      increasing xx /\ increasing YY /\ hd 0 YY = 0 /\ List.last YY 0 = 1
  | _ => True
  end.

(** The support of the distribution. *)
Definition in_support (p : Prior) (x : R) : Prop :=
  match p with
  | Uniform a b => a <= x <= b
  | Sine => 0 <= x <= PI
  | Cosine => - (PI / 2) <= x <= PI / 2
  | Interped xx _ => hd 0 xx <= x <= List.last xx 0
  | DeltaFunction c => x = c
  end.

(** Modelled from the spec: [rescale] maps the unit interval onto the
    support (inverse cumulative distribution; constant for a fixed prior).
    For [Interped] it is [interp1d(YY, xx)]. *)
Definition rescale (p : Prior) (u : R) : R :=
  match p with
  | Uniform a b => a + u * (b - a)
  | Sine => acos (1 - 2 * u)
  | Cosine => asin (2 * u - 1)
  | Interped xx YY => interp YY xx u
  | DeltaFunction c => c
  end.

(** Modelled from the spec: the cumulative distribution function, 0 below
    the support and 1 above it.  For [Interped] it is
    [interp1d(xx, YY, bounds_error=False, fill_value=(0, 1))]. *)
Definition cdf (p : Prior) (x : R) : R :=
  match p with
  | Uniform a b =>
      if Rlt_dec x a then 0 else if Rlt_dec b x then 1 else (x - a) / (b - a)
  | Sine =>
      if Rlt_dec x 0 then 0 else if Rlt_dec PI x then 1 else (1 - cos x) / 2
  | Cosine =>
      if Rlt_dec x (- (PI / 2)) then 0
      else if Rlt_dec (PI / 2) x then 1 else (1 + sin x) / 2
  | Interped xx YY =>
      if Rlt_dec x (hd 0 xx) then 0
      else if Rlt_dec (List.last xx 0) x then 1 else interp xx YY x
  | DeltaFunction c => if Rlt_dec x c then 0 else 1
  end.

Close Scope R_scope.

(** A prior collection: the ordered mapping from parameter name to prior. *)
Definition PriorDict := list (string * Prior).

(** Item assignment [priors[key] = prior]: replaces the prior of an existing
    key in place, appends a new key at the end. *)
Fixpoint setitem (pd : PriorDict) (k : string) (p : Prior) : PriorDict :=
  match pd with
  | [] => [(k, p)]
  | (k', p') :: pd' =>
      if String.eqb k k' then (k, p) :: pd' else (k', p') :: setitem pd' k p
  end.

(** Modelled from the spec: the partition of the collection into free and
    fixed keys (done when a sampler is set up) is not in the sources; both
    lists keep the collection's order. *)
Definition search_parameter_keys (pd : PriorDict) : list string :=
  map fst (filter (fun kp => is_fixed kp.2 = false) pd).

Definition fixed_parameter_keys (pd : PriorDict) : list string :=
  map fst (filter (fun kp => is_fixed kp.2 = true) pd).

(** A collection with the key set of the notebook's (cell 3): starting from
    an empty collection, each of the sixteen numeric injection parameters is
    set to a fixed prior (all at peak 0 here; the peaks play no part in the
    partition), then [ra] and [dec] are given free priors. *)
Definition notebook_priors : PriorDict :=
  let fixed := foldl (fun pd k => setitem pd k (DeltaFunction 0%R)) []
    ["mass_1"; "mass_2"; "a_1"; "a_2"; "tilt_1"; "tilt_2"; "phi_12"; "phi_jl";
     "luminosity_distance"; "iota"; "phase"; "reference_frequency"; "ra";
     "dec"; "geocent_time"; "psi"] in
  setitem (setitem fixed "ra" (Uniform 0 (2 * PI))) "dec" Cosine.

End Priors.


(* ------------------------------------------------------------------ *)
(** * Sampler dispatch *)
(* ------------------------------------------------------------------ *)

Module Sampler.

(** The run's state as far as the claims need it: the number of likelihood
    evaluations performed so far. *)
Definition St (A : Type) : Type := nat -> A * nat.

Definition ret {A} (x : A) : St A := fun n => (x, n).

Definition bind {A B} (m : St A) (f : A -> St B) : St B :=
  fun n => let '(x, n') := m n in f x n'.

Inductive run_error :=
| ConfigurationError (message : string) (known_backends : list string)
| SamplerRuntimeError (message : string) (checkpoint_path : string).

(** One evaluation of the likelihood, counted. *)
Definition call_likelihood {theta} (likelihood : theta -> float) (x : theta)
  : St float :=
  fun n => (likelihood x, S n).

Section RunSampler.
Context {theta output : Type}.

(** The names of the backends the sampler layer knows. *)
Variable implemented_samplers : list string.

(** The backend adapters, driven through the counted likelihood. *)
Variable adapter : string -> (theta -> St float) -> St (run_error + output).

(** Modelled from the spec: [run_sampler] is not in the sources.  An unknown
    backend name fails fast with a [ConfigurationError] that lists the known
    ones; a known one is handed to its adapter. *)
Definition run_sampler (likelihood : theta -> float) (sampler : string)
  : St (run_error + output) :=
  if existsb (String.eqb sampler) implemented_samplers
  then adapter sampler (call_likelihood likelihood)
  else ret (inl (ConfigurationError
                   ("Sampler " +:+ sampler +:+ " not yet implemented")
                   implemented_samplers)).

End RunSampler.

(** The backends the tutorial notebook runs. *)
Definition notebook_samplers : list string :=
  ["pymultinest"; "dynesty"; "ptemcee"].

End Sampler.

(* ------------------------------------------------------------------ *)
(** * The adapter-wrapped log-likelihood *)
(* ------------------------------------------------------------------ *)

Module Likelihood.

(** Modelled from the spec: the adapters' likelihood wrapper is not in the
    sources.  A non-finite value of the underlying log-likelihood (NaN or an
    infinity) is returned as [-infinity]; a finite one is passed through. *)
Definition wrapped_log_likelihood {theta} (log_likelihood : theta -> float)
    (x : theta) : float :=
  let v := log_likelihood x in
  if PrimFloat.is_finite v then v else PrimFloat.neg_infinity.

End Likelihood.

(* ------------------------------------------------------------------ *)
(** * Checkpoints *)
(* ------------------------------------------------------------------ *)

Module Checkpoint.

(** A checkpoint: header (configuration identifier, iteration count) and the
    backend's opaque state. *)
Record checkpoint := mk_checkpoint {
  ck_id : string;
  ck_iteration : nat;
  ck_state : list Z
}.

(** The pieces a checkpoint file is written in. *)
Inductive piece :=
| Header (id : string) (iteration : nat)
| Payload (z : Z)
| Trailer.

Definition file := list piece.

Definition encode (ck : checkpoint) : file :=
  Header (ck_id ck) (ck_iteration ck) :: map Payload (ck_state ck) ++ [Trailer].

Fixpoint decode_payload (f : file) : option (list Z) :=
  match f with
  | [Trailer] => Some []
  | Payload z :: f' => zs ← decode_payload f'; Some (z :: zs)
  | _ => None
  end.

(** A file that is not a complete checkpoint does not decode. *)
Definition decode (f : file) : option checkpoint :=
  match f with
  | Header id it :: f' => st ← decode_payload f'; Some (mk_checkpoint id it st)
  | _ => None
  end.

(** Durable storage: path to file contents. *)
Abbreviation fs := (gmap string file).

Inductive load_result :=
| Loaded (ck : checkpoint)
| NotFound
| Incompatible
| Corrupt.

(** Modelled from the spec: [load(path, expected_identifier)]. *)
Definition load (m : fs) (path expected : string) : load_result :=
  match m !! path with
  | None => NotFound
  | Some f =>
      match decode f with
      | None => Corrupt
      | Some ck => if String.eqb (ck_id ck) expected then Loaded ck else Incompatible
      end
  end.

Inductive start := Fresh | Resume (ck : checkpoint).

Inductive ck_error :=
| CheckpointIncompatibleError (path : string)
| SerializationError (path : string).

(** Modelled from the spec: the start-up policy.  An incompatible checkpoint
    is treated as a missing one only under a forced restart. *)
Definition start_run (force_restart : bool) (m : fs) (path expected : string)
  : ck_error + start :=
  match load m path expected with
  | Loaded ck => inr (Resume ck)
  | NotFound => inr Fresh
  | Incompatible =>
      if force_restart then inr Fresh else inl (CheckpointIncompatibleError path)
  | Corrupt => inl (SerializationError path)
  end.

(** The primitive file-system operations a save is made of. *)
Inductive op :=
| Truncate (p : string)
| Append (p : string) (x : piece)
| Rename (src dst : string).

Definition step (m : fs) (o : op) : fs :=
  match o with
  | Truncate p => <[p := []]> m
  | Append p x => <[p := default [] (m !! p) ++ [x]]> m
  | Rename src dst =>
      match m !! src with
      | Some f => <[dst := f]> (delete src m)
      | None => m
      end
  end.

Definition run_ops (m : fs) (os : list op) : fs := foldl step m os.

Definition temp_path (path : string) : string := path +:+ ".temp".

(** Modelled from the spec: [save(path, state)] writes the checkpoint to a
    temporary file piece by piece and then renames it over [path]. *)
Definition save_ops (path : string) (ck : checkpoint) : list op :=
  Truncate (temp_path path)
    :: map (Append (temp_path path)) (encode ck)
    ++ [Rename (temp_path path) path].

(** The storage after a crash that lets only the first [k] operations of a
    save complete. *)
Definition crash_after (k : nat) (m : fs) (path : string) (ck : checkpoint)
  : fs :=
  run_ops m (take k (save_ops path ck)).

(** The operations that only write [t]. *)
Definition writes_only (t : string) (o : op) : Prop :=
  match o with
  | Truncate p => p = t
  | Append p _ => p = t
  | Rename _ _ => False
  end.

(** A stored checkpoint, for the examples. *)
Definition old_checkpoint : checkpoint := mk_checkpoint "run-a" 120 [1; 2; 3]%Z.

Definition stored : fs := {[ "outdir/label_checkpoint" := encode old_checkpoint ]}.

End Checkpoint.

(* ------------------------------------------------------------------ *)
(** * Reading a result file *)
(* ------------------------------------------------------------------ *)

Module ResultIO.

(** The result file of a run: [outdir/label_result.h5]. *)
Definition result_file_name (outdir label : string) : string :=
  outdir +:+ "/" +:+ label +:+ "_result.h5".

Inductive read_error :=
| NoFileGiven
| NoResultFound (filename : string)
| SerializationError (filename : string).

(** Modelled from the spec: [bilby.result.read_in_result] is not in the
    sources.  As docs/bilby-output.txt describes it, the file is either
    named directly or given by [outdir] and [label]; it is then loaded from
    storage, keyed by the path string as built (two spellings of one file,
    such as [outdir//x] and [outdir/x], are different keys here). *)
Definition read_in_result (files : gmap string Container.h5node)
    (outdir label filename : option string) : read_error + Container.Result :=
  let fn :=
    match filename with
    | Some f => Some f
    | None =>
        match outdir, label with
        | Some o, Some l => Some (result_file_name o l)
        | _, _ => None
        end
    end in
  match fn with
  | None => inl NoFileGiven
  | Some f =>
      match files !! f with
      | None => inl (NoResultFound f)
      | Some doc =>
          match Container.read_result doc with
          | Some r => inr r
          | None => inl (SerializationError f)
          end
      end
  end.

End ResultIO.

(* ------------------------------------------------------------------ *)
(** * Item access and the members of a group *)
(* ------------------------------------------------------------------ *)

Module PriorAccess.
Import Priors.

(** Item access [priors[key]]: the prior of the key; [None] is the
    [KeyError] of a key the collection does not declare. *)
Fixpoint getitem (pd : PriorDict) (k : string) : option Prior :=
  match pd with
  | [] => None
  | (k', p) :: pd' => if String.eqb k k' then Some p else getitem pd' k
  end.

End PriorAccess.

Module Groups.
Import Container.

(** The members of a group of the container, in the order the file lists
    them; a dataset has none. *)
Definition members (n : h5node) : list (string * h5node) :=
  match n with
  | H5Group _ ch => ch
  | _ => []
  end.

(** A Result for the examples. *)
Definition example_result : Result :=
  mk_result ["ra"; "dec"] ["psi"]
    (mk_frame ["ra"; "dec"] [[1.375; -1.2108]; [1.4; -1.2]]%float)
    (-12042.875089354413) 0.040985337772488764 (-12072.445313485267)
    29.570224130853056 [("nlive", PInt 1000)] None "basic_tutorial" "outdir".

End Groups.

(* ------------------------------------------------------------------ *)
(** * The prior set-up of the tutorial notebook *)
(* ------------------------------------------------------------------ *)

Module Notebook.
Import Priors.

Local Open Scope R_scope.

(** examples/tutorials/compare_samplers.ipynb, cell 3 (lines 94-95):
    [for key in injection_parameters.keys():
         priors[key] = injection_parameters[key]]
    for numeric injection values; a plain value set as a prior is the fixed
    prior at that value. *)
Definition fix_injection_parameters (priors : PriorDict)
    (injection_parameters : list (string * R)) : PriorDict :=
  foldl (fun pd '(key, value) => setitem pd key (DeltaFunction value))
    priors injection_parameters.

(** The whole cell (lines 93-99), from the default collection [priors]
    ([bilby.gw.prior.BBHPriorDict()]): fix every injection parameter, then
    [priors['ra'] = Uniform(0, 2*pi, 'ra')] and
    [priors['dec'] = Cosine(name='dec', minimum=-pi/2, maximum=pi/2)], whose
    bounds are the default ones of [Cosine]. *)
Definition compare_samplers_priors (priors : PriorDict)
    (injection_parameters : list (string * R)) : PriorDict :=
  let priors := fix_injection_parameters priors injection_parameters in
  let priors := setitem priors "ra" (Uniform 0 (2 * PI)) in
  setitem priors "dec" Cosine.

End Notebook.


(* ================================================================== *)
(** * Proofs *)
(* ================================================================== *)

Module ContainerFacts.
Import Container.

Lemma item_key_inj i j : item_key i = item_key j -> i = j.
Proof.
  unfold item_key. intros H. simpl in H. injection H as H.
  apply pretty_N_inj in H. by apply Nat2N.inj.
Qed.

Lemma length_enc_items {A} (f : A -> h5node) i l :
  length (enc_items f i l) = length l.
Proof. revert i. induction l; intros i; simpl; auto. Qed.

Lemma assoc_enc_items {A} (f : A -> h5node) l i j :
  assoc (item_key j) (enc_items f i l) =
  if decide (i <= j) then f <$> l !! (j - i) else None.
Proof.
  revert i. induction l as [|x l IH]; intros i; cbn [assoc enc_items].
  - by destruct (decide (i <= j)).
  - destruct (String.eqb (item_key j) (item_key i)) eqn:E.
    + apply String.eqb_eq, item_key_inj in E. subst.
      rewrite decide_True by lia. rewrite Nat.sub_diag. reflexivity.
    + apply String.eqb_neq in E. assert (j <> i) by (intros ->; auto).
      rewrite IH.
      destruct (decide (S i <= j)), (decide (i <= j)); try lia; [|done].
      by replace (j - i) with (S (j - S i)) by lia.
Qed.

Section ListRoundtrip.
Context {A : Type} (f : A -> h5node) (g : h5node -> option A).
Hypothesis g_f : forall x, g (f x) = Some x.

Lemma dec_items_enc l n k :
  n + k = length l ->
  dec_items g (enc_items f 0 l) k n = Some (drop k l).
Proof.
  revert k. induction n as [|n IH]; intros k Hk; simpl.
  - by rewrite drop_ge by lia.
  - rewrite assoc_enc_items, decide_True, Nat.sub_0_r by lia.
    destruct (lookup_lt_is_Some_2 l k) as [x Hx]; [lia|].
    rewrite Hx. simpl. rewrite g_f. simpl. rewrite IH by lia. simpl.
    by rewrite (drop_S l x k Hx).
Qed.

Lemma dec_list_enc l : dec_list g (enc_list f l) = Some l.
Proof.
  unfold dec_list, enc_list. rewrite length_enc_items.
  rewrite dec_items_enc by lia. by rewrite drop_0.
Qed.

End ListRoundtrip.

Lemma dec_str_list l : dec_list dec_str (enc_list enc_str l) = Some l.
Proof. by apply dec_list_enc. Qed.

Lemma dec_entries_enc d :
  dec_entries (map (fun '(k, v) => (k, H5Scalar v)) d) = Some d.
Proof. induction d as [|[k v] d IH]; simpl; [done|]. by rewrite IH. Qed.

Lemma dec_dict_enc d : dec_dict (enc_dict d) = Some d.
Proof. apply dec_entries_enc. Qed.

Lemma dec_opt_dict_enc d : dec_opt_dict (enc_opt_dict d) = Some d.
Proof. destruct d as [d|]; [|done]. simpl. by rewrite dec_entries_enc. Qed.

(** Reading back a saved Result gives the Result. *)
Lemma read_save (r : Result) : read_result (save_result r) = Some r.
Proof.
  destruct r.
  unfold read_result, save_result.
  cbn -[enc_list dec_list enc_dict dec_dict enc_opt_dict dec_opt_dict].
  rewrite !dec_str_list, dec_opt_dict_enc, dec_dict_enc. reflexivity.
Qed.

End ContainerFacts.


Module ResultClaims.
Import Container ContainerFacts.

(** C1: the saved Result is one hierarchical dictionary whose top-level keys
    are exactly the Result field names [posterior], [log_evidence],
    [log_evidence_error], [log_noise_evidence], [log_bayes_factor],
    [search_parameter_keys], [fixed_parameter_keys], [injection_parameters],
    [sampler_kwargs], [label] and [outdir]; for every Result, each of these
    keys addresses (decodes to) the corresponding field. *)
Theorem container_keys_address_fields (r : Result) :
  top_keys (save_result r) =
    ["posterior"; "log_evidence"; "log_evidence_error"; "log_noise_evidence";
     "log_bayes_factor"; "search_parameter_keys"; "fixed_parameter_keys";
     "injection_parameters"; "sampler_kwargs"; "label"; "outdir"] /\
  field_at "posterior" (save_result r) = Some (H5Frame (posterior r)) /\
  (field_at "log_evidence" (save_result r) ≫= dec_float)
    = Some (log_evidence r) /\
  (field_at "log_evidence_error" (save_result r) ≫= dec_float)
    = Some (log_evidence_error r) /\
  (field_at "log_noise_evidence" (save_result r) ≫= dec_float)
    = Some (log_noise_evidence r) /\
  (field_at "log_bayes_factor" (save_result r) ≫= dec_float)
    = Some (log_bayes_factor r) /\
  (field_at "search_parameter_keys" (save_result r) ≫= dec_list dec_str)
    = Some (search_parameter_keys r) /\
  (field_at "fixed_parameter_keys" (save_result r) ≫= dec_list dec_str)
    = Some (fixed_parameter_keys r) /\
  (field_at "injection_parameters" (save_result r) ≫= dec_opt_dict)
    = Some (injection_parameters r) /\
  (field_at "sampler_kwargs" (save_result r) ≫= dec_dict)
    = Some (sampler_kwargs r) /\
  (field_at "label" (save_result r) ≫= dec_str) = Some (label r) /\
  (field_at "outdir" (save_result r) ≫= dec_str) = Some (outdir r).
Proof.
  split; [reflexivity|].
  unfold field_at, save_result.
  cbn -[enc_list dec_list enc_dict dec_dict enc_opt_dict dec_opt_dict].
  rewrite !dec_str_list, dec_opt_dict_enc, dec_dict_enc.
  repeat split.
Qed.

(** C2 (counterexample): in the documented result file the stored
    [log_bayes_factor] is not [logz - noise_logz] in binary64 arithmetic. *)
Lemma documented_bayes_factor_not_difference :
  match Evidence.documented_evidence with
  | Some (lz, nz, b) => b <> (lz - nz)%float
  | None => False
  end.
Proof.
  vm_compute. intros H.
  apply (f_equal (fun x => PrimFloat.eqb x 29.570224130853056%float)) in H.
  vm_compute in H. discriminate H.
Qed.

(** C2 (amended): the evidence fields are tied together by one floating-point
    operation: without the likelihood ratio, [log_bayes_factor] is the float
    difference [logz - noise_logz]; with it, [logz] is the float sum
    [log_bayes_factor + noise_logz].  The documented result is of the second
    kind, and there the float difference [logz - noise_logz] is within 1e-12
    of the stored [log_bayes_factor]. *)
Theorem evidence_bookkeeping (use_ratio : bool) (backend_logz noise : float) :
  (let '(lz, nz, b) := Evidence.bookkeep_evidence use_ratio backend_logz noise in
   nz = noise /\
   if use_ratio then lz = (b + nz)%float else b = (lz - nz)%float) /\
  match Evidence.documented_evidence with
  | Some (lz, nz, b) =>
      lz = (b + nz)%float /\
      PrimFloat.leb (PrimFloat.abs ((lz - nz) - b)) 1e-12 = true
  | None => False
  end.
Proof.
  split.
  - destruct use_ratio; simpl; split; reflexivity.
  - vm_compute. split; reflexivity.
Qed.

(** C3: reading back a saved Result gives the same Result: every scalar
    field bit for bit, and the posterior table with the same column names in
    the same order and the same rows. *)
Theorem result_roundtrip (r : Result) : read_result (save_result r) = Some r.
Proof. apply read_save. Qed.

End ResultClaims.

Module PriorFacts.
Import Priors.

Lemma filter_keys_sub (P : string * Prior -> Prop) `{forall x, Decision (P x)}
    (pd : PriorDict) k :
  k ∈ map fst (filter P pd) -> k ∈ map fst pd.
Proof.
  induction pd as [|[k' p'] pd IH]; simpl; [done|].
  rewrite (filter_cons P (k', p') pd). case_decide; simpl; rewrite ?elem_of_cons; intuition.
Qed.

(** The keys of a collection after an item assignment: unchanged when the key
    is already declared, extended at the end otherwise. *)
Lemma setitem_keys (pd : PriorDict) k p :
  map fst (setitem pd k p) =
  if bool_decide (k ∈ map fst pd) then map fst pd else map fst pd ++ [k].
Proof.
  induction pd as [|[k' p'] pd IH]; cbn [setitem map fst].
  - by rewrite bool_decide_false by (apply not_elem_of_nil).
  - destruct (String.eqb k k') eqn:E.
    + apply String.eqb_eq in E. subst.
      rewrite bool_decide_true by (apply elem_of_cons; auto). done.
    + apply String.eqb_neq in E. cbn [map fst]. rewrite IH.
      destruct (bool_decide (k ∈ map fst pd)) eqn:B;
        [apply bool_decide_eq_true in B | apply bool_decide_eq_false in B].
      * rewrite bool_decide_true by (apply elem_of_cons; auto). done.
      * rewrite bool_decide_false; [done|].
        rewrite elem_of_cons. intuition.
Qed.

(** Item assignment keeps the names of a collection unique. *)
Lemma setitem_nodup (pd : PriorDict) k p :
  NoDup (map fst pd) -> NoDup (map fst (setitem pd k p)).
Proof.
  intros Hnd. rewrite setitem_keys. case_bool_decide; [done|].
  apply NoDup_app. repeat split; [done| |apply NoDup_singleton].
  intros x Hx Hk. apply list_elem_of_singleton in Hk. subst. done.
Qed.

Section Transforms.
Local Open Scope R_scope.

Lemma uniform_frac_bounds a b x :
  a < b -> a <= x <= b -> 0 <= (x - a) / (b - a) <= 1.
Proof.
  intros Hab Hx.
  assert (E : (x - a) / (b - a) * (b - a) = x - a) by (field; lra).
  set (u := (x - a) / (b - a)) in *. nra.
Qed.

Lemma uniform_cdf_in a b x :
  a <= x <= b -> cdf (Uniform a b) x = (x - a) / (b - a).
Proof.
  intros Hx. simpl.
  destruct (Rlt_dec x a); [lra|]. destruct (Rlt_dec b x); [lra|]. done.
Qed.

Lemma sine_cdf_in x : 0 <= x <= PI -> cdf Sine x = (1 - cos x) / 2.
Proof.
  intros Hx. simpl.
  destruct (Rlt_dec x 0); [lra|]. destruct (Rlt_dec PI x); [lra|]. done.
Qed.

Lemma cosine_cdf_in x :
  - (PI / 2) <= x <= PI / 2 -> cdf Cosine x = (1 + sin x) / 2.
Proof.
  intros Hx. simpl.
  destruct (Rlt_dec x (- (PI / 2))); [lra|].
  destruct (Rlt_dec (PI / 2) x); [lra|]. done.
Qed.

(** [acos (1 - 2u)] is non-decreasing in [u] on the unit interval. *)
Lemma sine_rescale_mono u v :
  0 <= u <= v -> v <= 1 -> acos (1 - 2 * u) <= acos (1 - 2 * v).
Proof.
  intros Hu Hv. destruct (Rle_or_lt (acos (1 - 2 * u)) (acos (1 - 2 * v)))
    as [|Hlt]; [done|].
  exfalso. pose proof (acos_bound (1 - 2 * u)). pose proof (acos_bound (1 - 2 * v)).
  pose proof (cos_decreasing_1 (acos (1 - 2 * v)) (acos (1 - 2 * u)) ltac:(lra) ltac:(lra) ltac:(lra) ltac:(lra) Hlt)
    as Hc.
  rewrite !cos_acos in Hc by lra. lra.
Qed.

(** [asin (2u - 1)] is non-decreasing in [u] on the unit interval. *)
Lemma cosine_rescale_mono u v :
  0 <= u <= v -> v <= 1 -> asin (2 * u - 1) <= asin (2 * v - 1).
Proof.
  intros Hu Hv. destruct (Rle_or_lt (asin (2 * u - 1)) (asin (2 * v - 1)))
    as [|Hlt]; [done|].
  exfalso. pose proof (asin_bound (2 * u - 1)). pose proof (asin_bound (2 * v - 1)).
  pose proof (sin_increasing_1 (asin (2 * v - 1)) (asin (2 * u - 1)) ltac:(lra) ltac:(lra) ltac:(lra) ltac:(lra) Hlt)
    as Hs.
  rewrite !sin_asin in Hs by lra. lra.
Qed.

Lemma sine_rescale_cdf x : 0 <= x <= PI -> acos (1 - 2 * ((1 - cos x) / 2)) = x.
Proof.
  intros Hx. replace (1 - 2 * ((1 - cos x) / 2)) with (cos x) by field.
  by apply acos_cos.
Qed.

Lemma cosine_rescale_cdf x :
  - (PI / 2) <= x <= PI / 2 -> asin (2 * ((1 + sin x) / 2) - 1) = x.
Proof.
  intros Hx. replace (2 * ((1 + sin x) / 2) - 1) with (sin x) by field.
  by apply asin_sin.
Qed.

End Transforms.

(** ** Piecewise-linear interpolation on a strictly increasing table *)

Section Interp.
Local Open Scope R_scope.

Lemma interp_cons2 x0 x1 xs y0 y1 ys x :
  interp (x0 :: x1 :: xs) (y0 :: y1 :: ys) x =
  if Rle_dec x x1 then (y1 - y0) / (x1 - x0) * (x - x0) + y0
  else interp (x1 :: xs) (y1 :: ys) x.
Proof. reflexivity. Qed.

Lemma last_cons2 (a b : R) l d : List.last (a :: b :: l) d = List.last (b :: l) d.
Proof. reflexivity. Qed.

Lemma increasing_hd_last a l : increasing (a :: l) -> a <= List.last (a :: l) 0.
Proof.
  revert a. induction l as [|b l IH]; intros a H; [simpl; lra|].
  destruct H as [Hab Hl]. rewrite last_cons2. specialize (IH b Hl). lra.
Qed.

Lemma seg_slope x0 x1 y0 y1 : x0 < x1 -> y0 < y1 ->
  0 < (y1 - y0) / (x1 - x0) /\ (y1 - y0) / (x1 - x0) * (x1 - x0) = y1 - y0.
Proof.
  intros Hx Hy. split; [apply Rdiv_lt_0_compat; lra|]. field. lra.
Qed.

(** The common hypotheses on a table: as many values as grid points, both
    strictly increasing. *)
Definition table (xs ys : list R) : Prop :=
  length xs = length ys /\ increasing xs /\ increasing ys.

Lemma table_sym xs ys : table xs ys -> table ys xs.
Proof. intros (? & ? & ?). repeat split; auto. Qed.

Lemma table_tail x0 x1 xs y0 y1 ys :
  table (x0 :: x1 :: xs) (y0 :: y1 :: ys) ->
  x0 < x1 /\ y0 < y1 /\ table (x1 :: xs) (y1 :: ys).
Proof.
  intros (Hl & [Hx Hxs] & [Hy Hys]). repeat split; auto; simpl in *; lia.
Qed.

Lemma interp_bounds xs : forall ys x,
  table xs ys -> hd 0 xs <= x <= List.last xs 0 ->
  hd 0 ys <= interp xs ys x <= List.last ys 0.
Proof.
  induction xs as [|x0 xs IH]; intros ys x Ht Hr.
  - destruct ys; [simpl; lra|]. destruct Ht as [Hl _]. discriminate.
  - destruct ys as [|y0 ys]; [destruct Ht as [Hl _]; discriminate|].
    destruct xs as [|x1 xs'].
    + destruct ys as [|y1 ys']; [simpl; lra|].
      destruct Ht as [Hl _]. discriminate.
    + destruct ys as [|y1 ys']; [destruct Ht as [Hl _]; discriminate|].
      apply table_tail in Ht as (Hx01 & Hy01 & Ht).
      rewrite interp_cons2. rewrite last_cons2 in Hr |- *. cbn [hd] in Hr |- *.
      pose proof (increasing_hd_last y1 ys' (proj2 (proj2 Ht))) as Hyl.
      destruct (seg_slope x0 x1 y0 y1 Hx01 Hy01) as [Hs Hs1].
      destruct (Rle_dec x x1) as [Hle|Hgt].
      * split; nra.
      * destruct (IH (y1 :: ys') x Ht) as [H1 H2]; cbn [hd] in *; lra.
Qed.

Lemma interp_above_first xs : forall ys x,
  table xs ys -> hd 0 xs < x <= List.last xs 0 -> hd 0 ys < interp xs ys x.
Proof.
  induction xs as [|x0 xs IH]; intros ys x Ht Hr.
  - simpl in Hr. lra.
  - destruct ys as [|y0 ys]; [destruct Ht as [Hl _]; discriminate|].
    destruct xs as [|x1 xs']; [simpl in Hr; lra|].
    destruct ys as [|y1 ys']; [destruct Ht as [Hl _]; discriminate|].
    apply table_tail in Ht as (Hx01 & Hy01 & Ht).
    rewrite interp_cons2. rewrite last_cons2 in Hr. cbn [hd] in Hr |- *.
    destruct (seg_slope x0 x1 y0 y1 Hx01 Hy01) as [Hs Hs1].
    destruct (Rle_dec x x1) as [Hle|Hgt].
    + nra.
    + destruct (interp_bounds (x1 :: xs') (y1 :: ys') x Ht) as [H1 _];
        cbn [hd] in *; lra.
Qed.

Lemma interp_mono xs : forall ys x x',
  table xs ys -> hd 0 xs <= x -> x <= x' -> x' <= List.last xs 0 ->
  interp xs ys x <= interp xs ys x'.
Proof.
  induction xs as [|x0 xs IH]; intros ys x x' Ht Hx Hxx' Hx'.
  - simpl. lra.
  - destruct ys as [|y0 ys]; [destruct Ht as [Hl _]; discriminate|].
    destruct xs as [|x1 xs'].
    + destruct ys as [|y1 ys']; [simpl; lra|].
      destruct Ht as [Hl _]. discriminate.
    + destruct ys as [|y1 ys']; [destruct Ht as [Hl _]; discriminate|].
      apply table_tail in Ht as (Hx01 & Hy01 & Ht).
      rewrite !interp_cons2. rewrite last_cons2 in Hx'. cbn [hd] in Hx.
      destruct (seg_slope x0 x1 y0 y1 Hx01 Hy01) as [Hs Hs1].
      destruct (Rle_dec x x1) as [Hle|Hgt], (Rle_dec x' x1) as [Hle'|Hgt'].
      * nra.
      * destruct (interp_bounds (x1 :: xs') (y1 :: ys') x' Ht) as [H1 _];
          cbn [hd] in *; [lra|]. nra.
      * lra.
      * apply IH; [exact Ht|cbn [hd]; lra|lra|lra].
Qed.

(** Interpolating back through the swapped table inverts the interpolation
    on the range of the grid. *)
Lemma interp_inverse xs : forall ys x,
  table xs ys -> hd 0 xs <= x <= List.last xs 0 ->
  interp ys xs (interp xs ys x) = x.
Proof.
  induction xs as [|x0 xs IH]; intros ys x Ht Hr.
  - destruct ys; [simpl in *; lra|]. destruct Ht as [Hl _]. discriminate.
  - destruct ys as [|y0 ys]; [destruct Ht as [Hl _]; discriminate|].
    destruct xs as [|x1 xs'].
    + destruct ys as [|y1 ys']; [simpl in *; lra|].
      destruct Ht as [Hl _]. discriminate.
    + destruct ys as [|y1 ys']; [destruct Ht as [Hl _]; discriminate|].
      apply table_tail in Ht as (Hx01 & Hy01 & Ht).
      rewrite last_cons2 in Hr. cbn [hd] in Hr.
      destruct (seg_slope x0 x1 y0 y1 Hx01 Hy01) as [Hs Hs1].
      rewrite (interp_cons2 x0 x1 xs' y0 y1 ys').
      destruct (Rle_dec x x1) as [Hle|Hgt].
      * rewrite interp_cons2.
        destruct (Rle_dec ((y1 - y0) / (x1 - x0) * (x - x0) + y0) y1) as [_|Hn];
          [|exfalso; nra].
        field. lra.
      * rewrite interp_cons2.
        assert (Ha : y1 < interp (x1 :: xs') (y1 :: ys') x).
        { apply (interp_above_first (x1 :: xs') (y1 :: ys') x Ht).
          cbn [hd]. lra. }
        destruct (Rle_dec (interp (x1 :: xs') (y1 :: ys') x) y1) as [Hn|_];
          [exfalso; lra|].
        apply IH; [exact Ht|]. cbn [hd]. lra.
Qed.

End Interp.

End PriorFacts.

Module PriorClaims.
Import Priors PriorFacts.

(** C4: in a collection with unique names, no key is both a search key and
    a fixed key, and together the two lists have as many keys as the
    collection declares parameters. *)
Theorem partition_keys (pd : PriorDict) (Huniq : NoDup (map fst pd)) :
  (forall k, k ∈ search_parameter_keys pd -> k ∉ fixed_parameter_keys pd) /\
  length (search_parameter_keys pd) + length (fixed_parameter_keys pd)
    = length pd.
Proof.
  unfold search_parameter_keys, fixed_parameter_keys.
  induction pd as [|[k' p'] pd IH].
  - split; [intros k Hk; by apply not_elem_of_nil in Hk | done].
  - cbn [map fst] in Huniq. apply NoDup_cons in Huniq as [Hnot Hnd].
    destruct (IH Hnd) as [IHd IHl].
    rewrite (filter_cons (fun kp => is_fixed kp.2 = false) (k', p') pd).
    rewrite (filter_cons (fun kp => is_fixed kp.2 = true) (k', p') pd).
    cbn [snd]. destruct (is_fixed p');
      repeat case_decide; try congruence; cbn [map fst length];
      (split; [|rewrite <- IHl; first [apply Nat.add_succ_r | reflexivity]]).
    + intros k Hk. rewrite not_elem_of_cons. split; [|by apply IHd].
      intros ->. apply Hnot.
      by apply (filter_keys_sub (fun kp => is_fixed kp.2 = false) pd).
    + intros k Hk. apply elem_of_cons in Hk as [->|Hk].
      * intros Hf. apply Hnot.
        by apply (filter_keys_sub (fun kp => is_fixed kp.2 = true) pd).
      * by apply IHd.
Qed.

Lemma partition_keys_witness :
  NoDup (map fst notebook_priors) /\
  length (search_parameter_keys notebook_priors)
    + length (fixed_parameter_keys notebook_priors) = 16.
Proof.
  assert (H : NoDup (map fst notebook_priors))
    by (apply (bool_decide_unpack _); vm_compute; exact I).
  split; [exact H|].
  destruct (partition_keys notebook_priors H) as [_ Hl].
  rewrite Hl. reflexivity.
Defined.

Local Open Scope R_scope.

(** C5 (counterexample): for the fixed prior [DeltaFunction(0)],
    [cdf(rescale(u))] is not [u] on the open unit interval. *)
Lemma fixed_prior_cdf_rescale_not_identity :
  ~ (forall u, 0 < u < 1 ->
       cdf (DeltaFunction 0) (rescale (DeltaFunction 0) u) = u).
Proof.
  intros H.
  pose proof (H (1 / 4) ltac:(lra)) as H1.
  pose proof (H (1 / 2) ltac:(lra)) as H2.
  cbn [rescale] in H1, H2. rewrite H1 in H2. lra.
Qed.

(** C5 (amended): for every valid prior (Uniform with minimum < maximum,
    Sine, Cosine, a tabulated [Interped] prior such as UniformComovingVolume
    or AlignedSpin, or a fixed DeltaFunction), [rescale] is non-decreasing on
    [0, 1], its image on [0, 1] is exactly the support, and
    [rescale (cdf x) = x] on the support.  [cdf (rescale u) = u] on [0, 1]
    for every prior that is not fixed; for a fixed prior [rescale] is
    constant at the peak and [cdf (rescale u)] is 1. *)
Theorem rescale_cdf_transforms (p : Prior) (Hvalid : valid_prior p) :
  (forall u v, 0 <= u <= v -> v <= 1 -> rescale p u <= rescale p v) /\
  (forall u, 0 <= u <= 1 -> in_support p (rescale p u)) /\
  (forall x, in_support p x -> exists u, 0 <= u <= 1 /\ rescale p u = x) /\
  (forall x, in_support p x -> rescale p (cdf p x) = x) /\
  (forall u, 0 <= u <= 1 ->
     cdf p (rescale p u) = if is_fixed p then 1 else u).
Proof.
  destruct p as [a b| | |xx YY|c]; cbn [valid_prior] in Hvalid;
    cbn [rescale in_support is_fixed].
  - repeat split.
    + intros u v Hu Hv. nra.
    + nra.
    + nra.
    + intros x Hx. exists ((x - a) / (b - a)).
      split; [by apply uniform_frac_bounds|]. field. lra.
    + intros x Hx. rewrite uniform_cdf_in by done. field. lra.
    + intros u Hu. rewrite uniform_cdf_in by nra. field. lra.
  - repeat split.
    + apply sine_rescale_mono.
    + apply acos_bound.
    + apply acos_bound.
    + intros x Hx. exists ((1 - cos x) / 2).
      pose proof (COS_bound x). split; [lra|]. by apply sine_rescale_cdf.
    + intros x Hx. rewrite sine_cdf_in by done. by apply sine_rescale_cdf.
    + intros u Hu. rewrite sine_cdf_in by apply acos_bound.
      rewrite cos_acos by lra. field.
  - repeat split.
    + apply cosine_rescale_mono.
    + apply asin_bound.
    + apply asin_bound.
    + intros x Hx. exists ((1 + sin x) / 2).
      pose proof (SIN_bound x). split; [lra|]. by apply cosine_rescale_cdf.
    + intros x Hx. rewrite cosine_cdf_in by done. by apply cosine_rescale_cdf.
    + intros u Hu. rewrite cosine_cdf_in by apply asin_bound.
      rewrite sin_asin by lra. field.
  - destruct Hvalid as (Hlen & _ & Hx & Hy & H0 & H1).
    assert (Ht : table xx YY) by (repeat split; auto).
    pose proof (table_sym _ _ Ht) as Ht'.
    repeat split.
    + intros u v Huv Hv. apply interp_mono; auto; lra.
    + apply interp_bounds; auto; lra.
    + apply interp_bounds; auto; lra.
    + intros x Hx'. exists (interp xx YY x).
      pose proof (interp_bounds xx YY x Ht Hx') as Hb. split; [lra|].
      by apply interp_inverse.
    + intros x Hx'. cbn [cdf].
      destruct (Rlt_dec x (hd 0 xx)); [lra|].
      destruct (Rlt_dec (List.last xx 0) x); [lra|].
      by apply interp_inverse.
    + intros u Hu. cbn [cdf].
      pose proof (interp_bounds YY xx u Ht' ltac:(lra)) as Hb.
      destruct (Rlt_dec (interp YY xx u) (hd 0 xx)); [lra|].
      destruct (Rlt_dec (List.last xx 0) (interp YY xx u)); [lra|].
      apply interp_inverse; [exact Ht'|lra].
  - repeat split.
    + intros. lra.
    + intros x ->. exists 0. split; [lra|done].
    + intros x ->. done.
    + intros u Hu. cbn [cdf]. destruct (Rlt_dec c c); [lra|done].
Qed.

Lemma rescale_cdf_transforms_witness :
  valid_prior (Uniform 30 50) /\
  rescale (Uniform 30 50) (cdf (Uniform 30 50) 40) = 40.
Proof.
  assert (H : valid_prior (Uniform 30 50)) by (simpl; lra).
  split; [exact H|].
  destruct (rescale_cdf_transforms (Uniform 30 50) H) as (_ & _ & _ & Hinv & _).
  apply Hinv. simpl. lra.
Defined.

Close Scope R_scope.

End PriorClaims.

Module SamplerClaims.
Import Sampler.

(** C6: a backend name outside the known set fails with a
    [ConfigurationError] carrying the known names, and the likelihood
    evaluation count is unchanged: no evaluation took place. *)
Theorem unknown_sampler_fails_fast {theta output : Type}
    (implemented_samplers : list string)
    (adapter : string -> (theta -> St float) -> St (run_error + output))
    (likelihood : theta -> float) (sampler : string) (n : nat)
    (Hunknown : sampler ∉ implemented_samplers) :
  run_sampler implemented_samplers adapter likelihood sampler n =
  (inl (ConfigurationError ("Sampler " +:+ sampler +:+ " not yet implemented")
                           implemented_samplers), n).
Proof.
  unfold run_sampler.
  destruct (existsb (String.eqb sampler) implemented_samplers) eqn:E; [|done].
  apply existsb_exists in E as [s [Hin Heq]].
  apply String.eqb_eq in Heq. subst s.
  exfalso. apply Hunknown. by apply list_elem_of_In.
Qed.

Lemma unknown_sampler_fails_fast_witness :
  ("not-a-real-sampler" ∉ notebook_samplers) /\
  run_sampler notebook_samplers
    (fun _ (l : float -> St float) => bind (l 0%float) (fun v => ret (inr v)))
    (fun x => x) "not-a-real-sampler" 0 =
  (inl (ConfigurationError
          ("Sampler " +:+ "not-a-real-sampler" +:+ " not yet implemented")
          notebook_samplers), 0).
Proof.
  assert (H : "not-a-real-sampler" ∉ notebook_samplers)
    by (apply (bool_decide_unpack _); vm_compute; exact I).
  split; [exact H|].
  apply (unknown_sampler_fails_fast (theta := float) (output := float)
           notebook_samplers _ _ _ 0 H).
Defined.

End SamplerClaims.

Module LikelihoodClaims.
Import Likelihood.

(** C7: the wrapped log-likelihood is never NaN; a non-finite value of the
    underlying log-likelihood becomes [-infinity] and a finite one is
    returned as it is.  The wrapper is total: it returns a value, never an
    error. *)
Theorem wrapped_non_finite_is_neg_infinity {theta : Type}
    (log_likelihood : theta -> float) (x : theta) :
  PrimFloat.is_nan (wrapped_log_likelihood log_likelihood x) = false /\
  (PrimFloat.is_finite (log_likelihood x) = false ->
   wrapped_log_likelihood log_likelihood x = PrimFloat.neg_infinity) /\
  (PrimFloat.is_finite (log_likelihood x) = true ->
   wrapped_log_likelihood log_likelihood x = log_likelihood x).
Proof.
  unfold wrapped_log_likelihood.
  destruct (PrimFloat.is_finite (log_likelihood x)) eqn:E.
  - repeat split; try discriminate.
    unfold PrimFloat.is_finite in E.
    destruct (PrimFloat.is_nan (log_likelihood x)); [discriminate|done].
  - repeat split; try discriminate.
Qed.

Lemma wrapped_non_finite_is_neg_infinity_witness :
  PrimFloat.is_finite PrimFloat.nan = false /\
  wrapped_log_likelihood (fun _ : unit => PrimFloat.nan) tt
    = PrimFloat.neg_infinity.
Proof.
  assert (H : PrimFloat.is_finite PrimFloat.nan = false) by (vm_compute; reflexivity).
  split; [exact H|].
  destruct (wrapped_non_finite_is_neg_infinity (fun _ : unit => PrimFloat.nan) tt)
    as (_ & Hnf & _).
  exact (Hnf H).
Defined.

End LikelihoodClaims.

Module CheckpointFacts.
Import Checkpoint.

Lemma decode_payload_encode st : decode_payload (map Payload st ++ [Trailer]) = Some st.
Proof. induction st as [|z st IH]; simpl; [done|]. by rewrite IH. Qed.

Lemma decode_encode ck : decode (encode ck) = Some ck.
Proof. destruct ck. unfold encode, decode. by rewrite decode_payload_encode. Qed.

Lemma string_length_app (s t : string) :
  String.length (s +:+ t) = String.length s + String.length t.
Proof. induction s as [|c s IH]; simpl; [done|]. by rewrite IH. Qed.

Lemma temp_path_ne path : temp_path path <> path.
Proof.
  unfold temp_path. intros H. apply (f_equal String.length) in H.
  rewrite string_length_app in H. simpl in H. lia.
Qed.

Lemma run_ops_other m os t path :
  t <> path -> Forall (writes_only t) os -> run_ops m os !! path = m !! path.
Proof.
  intros Hne Hos. unfold run_ops. revert m.
  induction Hos as [|o os Ho Hos IH]; intros m; simpl; [done|].
  rewrite IH. destruct o; cbn [step writes_only] in *; try contradiction; subst;
    by rewrite lookup_insert_ne.
Qed.

Lemma run_appends m t acc xs :
  m !! t = Some acc ->
  run_ops m (map (Append t) xs) !! t = Some (acc ++ xs).
Proof.
  unfold run_ops. revert m acc.
  induction xs as [|x xs IH]; intros m acc Hm; simpl.
  - by rewrite app_nil_r.
  - rewrite (IH _ (acc ++ [x])); [by rewrite <- app_assoc|].
    rewrite Hm. simpl. by rewrite lookup_insert_eq.
Qed.

Lemma save_ops_split path ck :
  save_ops path ck =
  (Truncate (temp_path path) :: map (Append (temp_path path)) (encode ck))
    ++ [Rename (temp_path path) path].
Proof. done. Qed.

Lemma appends_write_only t xs : Forall (writes_only t) (map (Append t) xs).
Proof. induction xs; simpl; constructor; done. Qed.

Lemma run_ops_app m os1 os2 :
  run_ops m (os1 ++ os2) = run_ops (run_ops m os1) os2.
Proof. unfold run_ops. apply foldl_app. Qed.

End CheckpointFacts.

Module CheckpointClaims.
Import Checkpoint CheckpointFacts.

(** C8: loading a stored checkpoint whose header identifier differs from the
    run's is a [CheckpointIncompatibleError], not a fresh start; under a
    forced restart it is treated exactly as if no checkpoint were stored. *)
Theorem incompatible_checkpoint_policy (m : fs) (path expected : string)
    (ck : checkpoint)
    (Hstored : m !! path = Some (encode ck))
    (Hmismatch : ck_id ck <> expected) :
  start_run false m path expected = inl (CheckpointIncompatibleError path) /\
  start_run true m path expected = start_run true (delete path m) path expected.
Proof.
  unfold start_run, load. rewrite lookup_delete_eq, Hstored, decode_encode.
  apply String.eqb_neq in Hmismatch. rewrite Hmismatch. split; done.
Qed.

Lemma incompatible_checkpoint_policy_witness :
  stored !! "outdir/label_checkpoint" = Some (encode old_checkpoint) /\
  ck_id old_checkpoint <> "run-b" /\
  start_run false stored "outdir/label_checkpoint" "run-b"
    = inl (CheckpointIncompatibleError "outdir/label_checkpoint").
Proof.
  assert (H1 : stored !! "outdir/label_checkpoint" = Some (encode old_checkpoint))
    by (vm_compute; reflexivity).
  assert (H2 : ck_id old_checkpoint <> "run-b") by (vm_compute; discriminate).
  split; [exact H1|]. split; [exact H2|].
  exact (proj1 (incompatible_checkpoint_policy stored "outdir/label_checkpoint"
                  "run-b" old_checkpoint H1 H2)).
Defined.

(** C9: a crash at any point of a save, that is after any proper prefix of
    its operations, leaves the file at [path] as it was, so the previous
    checkpoint loads as before; a completed save leaves the new checkpoint
    there. *)
Theorem save_is_atomic (m : fs) (path : string) (ck : checkpoint) (k : nat)
    (Hcrash : k < length (save_ops path ck)) :
  crash_after k m path ck !! path = m !! path /\
  (forall expected,
     load (crash_after k m path ck) path expected = load m path expected) /\
  load (run_ops m (save_ops path ck)) path (ck_id ck) = Loaded ck.
Proof.
  assert (Hpath : crash_after k m path ck !! path = m !! path).
  { unfold crash_after. rewrite save_ops_split in *.
    rewrite length_app in Hcrash. cbn [length] in Hcrash.
    rewrite take_app_le by (cbn [length]; lia).
    apply (run_ops_other _ _ (temp_path path)); [apply temp_path_ne|].
    apply Forall_take. constructor; [done|apply appends_write_only]. }
  split; [done|]. split.
  - intros expected. unfold load. by rewrite Hpath.
  - rewrite save_ops_split, run_ops_app.
    assert (Ht : run_ops m (Truncate (temp_path path)
                              :: map (Append (temp_path path)) (encode ck))
                   !! temp_path path = Some (encode ck)).
    { change (run_ops (<[temp_path path := []]> m)
                (map (Append (temp_path path)) (encode ck))
                !! temp_path path = Some (encode ck)).
      rewrite (run_appends _ _ []); [done|]. by rewrite lookup_insert_eq. }
    unfold run_ops at 1. cbn [foldl step]. fold (run_ops m (Truncate (temp_path path)
                              :: map (Append (temp_path path)) (encode ck))).
    rewrite Ht. unfold load. rewrite lookup_insert_eq, decode_encode.
    by rewrite String.eqb_refl.
Qed.

Lemma save_is_atomic_witness :
  2 < length (save_ops "outdir/label_checkpoint" (mk_checkpoint "run-a" 130 [4; 5]%Z)) /\
  crash_after 2 stored "outdir/label_checkpoint" (mk_checkpoint "run-a" 130 [4; 5]%Z)
    !! "outdir/label_checkpoint" = Some (encode old_checkpoint).
Proof.
  assert (H : 2 < length (save_ops "outdir/label_checkpoint"
                            (mk_checkpoint "run-a" 130 [4; 5]%Z)))
    by (simpl; lia).
  split; [exact H|].
  rewrite (proj1 (save_is_atomic stored "outdir/label_checkpoint"
                    (mk_checkpoint "run-a" 130 [4; 5]%Z) 2 H)).
  vm_compute. reflexivity.
Defined.

End CheckpointClaims.

Module ResultIOClaims.
Import ResultIO.

(** C10: [read_in_result(outdir=outdir, label=label)] and
    [read_in_result(filename=outdir + '/' + label + '_result.h5')] give the
    same outcome on every storage: the same Result when the file holds one,
    the same error otherwise. *)
Theorem read_in_result_forms (files : gmap string Container.h5node)
    (outdir label : string) :
  read_in_result files (Some outdir) (Some label) None =
  read_in_result files None None
    (Some (outdir +:+ "/" +:+ label +:+ "_result.h5")).
Proof. reflexivity. Qed.

End ResultIOClaims.

(* ================================================================== *)
(** * Further properties of the code *)
(* ================================================================== *)

Module PriorAccessFacts.
Import Priors PriorAccess PriorFacts.

Lemma getitem_setitem_eq (pd : PriorDict) k p : getitem (setitem pd k p) k = Some p.
Proof.
  induction pd as [|[k' p'] pd IH]; cbn [setitem getitem].
  - by rewrite String.eqb_refl.
  - destruct (String.eqb k k') eqn:E; cbn [getitem].
    + by rewrite String.eqb_refl.
    + by rewrite E.
Qed.

Lemma getitem_setitem_ne (pd : PriorDict) k k' p :
  k' <> k -> getitem (setitem pd k p) k' = getitem pd k'.
Proof.
  intros Hne. induction pd as [|[k0 p0] pd IH]; cbn [setitem getitem].
  - apply String.eqb_neq in Hne. by rewrite Hne.
  - destruct (String.eqb k k0) eqn:E; cbn [getitem].
    + apply String.eqb_eq in E. subst k0.
      apply String.eqb_neq in Hne. by rewrite Hne.
    + by rewrite IH.
Qed.

End PriorAccessFacts.

Module NotebookFacts.
Import Priors PriorAccess Notebook PriorFacts PriorAccessFacts.

Lemma getitem_fix_notin (pd : PriorDict) inj k :
  k ∉ map fst inj -> getitem (fix_injection_parameters pd inj) k = getitem pd k.
Proof.
  unfold fix_injection_parameters. revert pd.
  induction inj as [|[k' v] inj IH]; intros pd Hk; cbn [foldl map fst] in *; [done|].
  apply not_elem_of_cons in Hk as [Hne Hk].
  rewrite IH by done. by apply getitem_setitem_ne.
Qed.

Lemma getitem_fix_in (pd : PriorDict) inj k v :
  NoDup (map fst inj) -> (k, v) ∈ inj ->
  getitem (fix_injection_parameters pd inj) k = Some (DeltaFunction v).
Proof.
  revert pd. induction inj as [|[k' v'] inj IH]; intros pd Hnd Hin.
  - by apply not_elem_of_nil in Hin.
  - cbn [map fst] in Hnd. apply NoDup_cons in Hnd as [Hk' Hnd].
    change (getitem (fix_injection_parameters
              (setitem pd k' (DeltaFunction v')) inj) k = Some (DeltaFunction v)).
    apply elem_of_cons in Hin as [Heq|Hin].
    + injection Heq as -> ->.
      rewrite getitem_fix_notin by done. apply getitem_setitem_eq.
    + by apply IH.
Qed.

(** The prior of every key after the notebook's cell. *)
Lemma getitem_compare_samplers_priors (pd : PriorDict) inj k :
  getitem (compare_samplers_priors pd inj) k =
  if decide (k = "dec") then Some Cosine
  else if decide (k = "ra") then Some (Uniform 0 (2 * PI))
  else getitem (fix_injection_parameters pd inj) k.
Proof.
  unfold compare_samplers_priors.
  case_decide; [subst; apply getitem_setitem_eq|].
  rewrite getitem_setitem_ne by done.
  case_decide; [subst; apply getitem_setitem_eq|].
  by rewrite getitem_setitem_ne.
Qed.

End NotebookFacts.

Module NotebookExtras.
Import Priors PriorAccess Notebook PriorAccessFacts NotebookFacts.

(** The notebook's prior set-up sets each prior as written: [ra] is
    [Uniform(0, 2 pi)], [dec] is [Cosine], and every other injection
    parameter is fixed at its injected value, whatever the default
    collection held for it. *)
Theorem compare_samplers_priors_values (priors : PriorDict)
    (injection_parameters : list (string * R))
    (Hdict : NoDup (map fst injection_parameters)) :
  getitem (compare_samplers_priors priors injection_parameters) "ra"
    = Some (Uniform 0 (2 * PI)) /\
  getitem (compare_samplers_priors priors injection_parameters) "dec"
    = Some Cosine /\
  (forall k v, (k, v) ∈ injection_parameters -> k <> "ra" -> k <> "dec" ->
     getitem (compare_samplers_priors priors injection_parameters) k
       = Some (DeltaFunction v)).
Proof.
  split; [|split].
  - rewrite getitem_compare_samplers_priors. by repeat case_decide.
  - by rewrite getitem_compare_samplers_priors.
  - intros k v Hin Hra Hdec. rewrite getitem_compare_samplers_priors.
    do 2 (case_decide; [contradiction|]). by apply getitem_fix_in.
Qed.

Local Open Scope R_scope.

Lemma compare_samplers_priors_values_witness :
  NoDup (map fst [("mass_1", 36); ("ra", 1375 / 1000); ("psi", 2659 / 1000)]) /\
  getitem (compare_samplers_priors [("mass_1", Uniform 5 100); ("psi", Uniform 0 PI)]
             [("mass_1", 36); ("ra", 1375 / 1000); ("psi", 2659 / 1000)]) "psi"
    = Some (DeltaFunction (2659 / 1000)).
Proof.
  assert (H : NoDup (map fst [("mass_1", 36); ("ra", 1375 / 1000); ("psi", 2659 / 1000)])).
  { cbn [map fst]. apply (bool_decide_unpack _). vm_compute. exact I. }
  split; [exact H|].
  apply (proj2 (proj2 (compare_samplers_priors_values
    [("mass_1", Uniform 5 100); ("psi", Uniform 0 PI)] _ H))).
  - apply elem_of_cons. right. apply elem_of_cons. right. apply elem_of_cons. by left.
  - discriminate.
  - discriminate.
Defined.

Close Scope R_scope.

End NotebookExtras.

Module PriorAccessExtras.
Import Priors PriorAccess PriorFacts PriorAccessFacts.

(** Item assignment [priors[key] = prior] behaves as a dictionary update:
    reading [key] back gives the new prior, every other key reads as
    before, and the declared names are unchanged for a declared key and
    extended by [key] at the end otherwise. *)
Theorem setitem_getitem (pd : PriorDict) (k : string) (p : Prior) :
  getitem (setitem pd k p) k = Some p /\
  (forall k', k' <> k -> getitem (setitem pd k p) k' = getitem pd k') /\
  map fst (setitem pd k p) =
    if bool_decide (k ∈ map fst pd) then map fst pd else map fst pd ++ [k].
Proof.
  split; [apply getitem_setitem_eq|]. split.
  - intros k' Hne. by apply getitem_setitem_ne.
  - apply setitem_keys.
Qed.

End PriorAccessExtras.


Module CdfFacts.
Import Priors PriorFacts.
Local Open Scope R_scope.

(** A distribution function that is 0 below [lo], 1 above [hi] and a
    non-decreasing function with values in [0, 1] in between. *)
Lemma piecewise_cdf (F G : R -> R) (lo hi : R) :
  (forall x, F x = if Rlt_dec x lo then 0 else if Rlt_dec hi x then 1 else G x) ->
  (forall x, lo <= x <= hi -> 0 <= G x <= 1) ->
  (forall x y, lo <= x -> x <= y -> y <= hi -> G x <= G y) ->
  (forall x, 0 <= F x <= 1) /\ (forall x y, x <= y -> F x <= F y).
Proof.
  intros HF HG Hmono. split.
  - intros x. rewrite HF.
    destruct (Rlt_dec x lo); [lra|]. destruct (Rlt_dec hi x); [lra|].
    apply HG. lra.
  - intros x y Hxy. rewrite (HF x), (HF y).
    destruct (Rlt_dec x lo), (Rlt_dec hi x), (Rlt_dec y lo), (Rlt_dec hi y);
      try lra;
      first [ pose proof (HG y ltac:(lra)); lra
            | pose proof (HG x ltac:(lra)); lra
            | apply Hmono; lra ].
Qed.

Lemma uniform_frac_mono a b x y :
  a < b -> x <= y -> (x - a) / (b - a) <= (y - a) / (b - a).
Proof.
  intros Hab Hxy. unfold Rdiv. apply Rmult_le_compat_r; [|lra].
  left. apply Rinv_0_lt_compat. lra.
Qed.

Lemma sine_frac_mono x y :
  0 <= x -> x <= y -> y <= PI -> (1 - cos x) / 2 <= (1 - cos y) / 2.
Proof.
  intros Hx Hxy Hy. destruct (Req_dec x y) as [->|Hne]; [lra|].
  pose proof (cos_decreasing_1 x y Hx ltac:(lra) ltac:(lra) Hy ltac:(lra)). lra.
Qed.

Lemma cosine_frac_mono x y :
  - (PI / 2) <= x -> x <= y -> y <= PI / 2 -> (1 + sin x) / 2 <= (1 + sin y) / 2.
Proof.
  intros Hx Hxy Hy. destruct (Req_dec x y) as [->|Hne]; [lra|].
  pose proof (sin_increasing_1 x y Hx ltac:(lra) ltac:(lra) Hy ltac:(lra)). lra.
Qed.

End CdfFacts.

Module PriorExtras.
Import Priors PriorFacts CdfFacts.
Local Open Scope R_scope.

(** For every valid prior of the prior files' classes (a Uniform prior with
    minimum < maximum, Sine, Cosine, a tabulated [Interped] prior such as
    UniformComovingVolume or AlignedSpin, or a fixed prior), the cumulative
    distribution function takes its values in [0, 1] on the whole real
    line and is non-decreasing there, also outside the support. *)
Theorem cdf_bounded_monotone (p : Prior) (Hvalid : valid_prior p) :
  (forall x, 0 <= cdf p x <= 1) /\
  (forall x y, x <= y -> cdf p x <= cdf p y).
Proof.
  destruct p as [a b| | |xx YY|c]; cbn [valid_prior] in Hvalid.
  - apply (piecewise_cdf _ (fun x => (x - a) / (b - a)) a b); [done| |].
    + intros x Hx. by apply uniform_frac_bounds.
    + intros x y Hx Hxy Hy. by apply uniform_frac_mono.
  - apply (piecewise_cdf _ (fun x => (1 - cos x) / 2) 0 PI); [done| |].
    + intros x _. pose proof (COS_bound x). lra.
    + intros x y Hx Hxy Hy. by apply sine_frac_mono.
  - apply (piecewise_cdf _ (fun x => (1 + sin x) / 2) (- (PI / 2)) (PI / 2)); [done| |].
    + intros x _. pose proof (SIN_bound x). lra.
    + intros x y Hx Hxy Hy. by apply cosine_frac_mono.
  - destruct Hvalid as (Hlen & _ & Hx & Hy & H0 & H1).
    assert (Ht : table xx YY) by (repeat split; auto).
    apply (piecewise_cdf _ (interp xx YY) (hd 0 xx) (List.last xx 0));
      [done| |].
    + intros x Hx'. rewrite <- H0, <- H1. by apply interp_bounds.
    + intros x y Hx' Hxy Hy'. by apply interp_mono.
  - cbn [cdf]. split.
    + intros x. destruct (Rlt_dec x c); lra.
    + intros x y Hxy. destruct (Rlt_dec x c), (Rlt_dec y c); lra.
Qed.

Lemma cdf_bounded_monotone_witness :
  valid_prior (Uniform 20 40) /\ cdf (Uniform 20 40) 10 <= cdf (Uniform 20 40) 30.
Proof.
  assert (H : valid_prior (Uniform 20 40)) by (simpl; lra).
  split; [exact H|].
  apply (proj2 (cdf_bounded_monotone (Uniform 20 40) H)). lra.
Defined.

End PriorExtras.

Module LikelihoodExtras.
Import Likelihood.

(** Wrapping is idempotent: wrapping the wrapped log-likelihood changes
    nothing.  Every wrapped value is finite or [-infinity]; in particular it
    is never [+infinity]. *)
Theorem wrapped_log_likelihood_idempotent {theta : Type}
    (log_likelihood : theta -> float) (x : theta) :
  wrapped_log_likelihood (wrapped_log_likelihood log_likelihood) x
    = wrapped_log_likelihood log_likelihood x /\
  (PrimFloat.is_finite (wrapped_log_likelihood log_likelihood x) = true \/
   wrapped_log_likelihood log_likelihood x = PrimFloat.neg_infinity) /\
  wrapped_log_likelihood log_likelihood x <> PrimFloat.infinity.
Proof.
  unfold wrapped_log_likelihood.
  destruct (PrimFloat.is_finite (log_likelihood x)) eqn:E.
  - rewrite E. split; [done|]. split; [by left|].
    intros Hinf. rewrite Hinf in E. vm_compute in E. discriminate.
  - assert (Hn : PrimFloat.is_finite PrimFloat.neg_infinity = false)
      by (vm_compute; reflexivity).
    rewrite Hn. split; [done|]. split; [by right|].
    intros Hinf. apply (f_equal (fun y => PrimFloat.ltb y 0%float)) in Hinf.
    vm_compute in Hinf. discriminate.
Qed.

End LikelihoodExtras.

Module StringFacts.

Lemma list_ascii_of_string_app (s t : string) :
  String.list_ascii_of_string (s +:+ t) =
  String.list_ascii_of_string s ++ String.list_ascii_of_string t.
Proof. induction s as [|c s IH]; simpl; [done|]. by rewrite IH. Qed.

Lemma string_app_inj_r (s1 s2 t : string) : s1 +:+ t = s2 +:+ t -> s1 = s2.
Proof.
  intros H. apply (f_equal String.list_ascii_of_string) in H.
  rewrite !list_ascii_of_string_app in H. apply app_inv_tail in H.
  rewrite <- (String.string_of_list_ascii_of_string s1),
          <- (String.string_of_list_ascii_of_string s2), H.
  done.
Qed.

End StringFacts.

Module SaveFacts.
Import Checkpoint CheckpointFacts StringFacts.

Lemma temp_path_inj p q : temp_path p = temp_path q -> p = q.
Proof. unfold temp_path. apply string_app_inj_r. Qed.

Lemma write_temp_ops m path ck :
  run_ops m (Truncate (temp_path path) :: map (Append (temp_path path)) (encode ck))
    !! temp_path path = Some (encode ck).
Proof.
  change (run_ops (<[temp_path path := []]> m)
            (map (Append (temp_path path)) (encode ck))
            !! temp_path path = Some (encode ck)).
  rewrite (run_appends _ _ []); [done|]. by rewrite lookup_insert_eq.
Qed.

(** The storage after a completed save, path by path. *)
Lemma save_lookup m path ck q :
  run_ops m (save_ops path ck) !! q =
  if decide (q = path) then Some (encode ck)
  else if decide (q = temp_path path) then None
  else m !! q.
Proof.
  rewrite save_ops_split, run_ops_app.
  unfold run_ops at 1. cbn [foldl step].
  fold (run_ops m (Truncate (temp_path path)
                     :: map (Append (temp_path path)) (encode ck))).
  rewrite write_temp_ops.
  case_decide as Hp; [subst; by rewrite lookup_insert_eq|].
  rewrite lookup_insert_ne by congruence.
  case_decide as Ht; [subst; by rewrite lookup_delete_eq|].
  rewrite lookup_delete_ne by congruence.
  apply (run_ops_other _ _ (temp_path path)); [done|].
  constructor; [done|apply appends_write_only].
Qed.

End SaveFacts.

Module CheckpointExtras.
Import Checkpoint CheckpointFacts SaveFacts.

(** A completed save leaves no temporary file behind and changes no path
    other than the checkpoint's own. *)
Theorem save_leaves_no_temp (m : fs) (path : string) (ck : checkpoint) :
  run_ops m (save_ops path ck) !! temp_path path = None /\
  (forall q, q <> path -> q <> temp_path path ->
     run_ops m (save_ops path ck) !! q = m !! q).
Proof.
  split.
  - rewrite save_lookup. case_decide as H; [by apply temp_path_ne in H|].
    by rewrite decide_True.
  - intros q Hp Ht. rewrite save_lookup. by rewrite !decide_False.
Qed.

(** Saves of two runs at distinct checkpoint paths (neither being the
    other's temporary file) do not interfere: after both saves each path
    loads its own checkpoint and neither temporary file is left. *)
Theorem saves_do_not_interfere (m : fs) (p q : string) (ck1 ck2 : checkpoint)
    (Hpq : p <> q) (Hq : q <> temp_path p) (Hp : p <> temp_path q) :
  load (run_ops (run_ops m (save_ops p ck1)) (save_ops q ck2)) p (ck_id ck1)
    = Loaded ck1 /\
  load (run_ops (run_ops m (save_ops p ck1)) (save_ops q ck2)) q (ck_id ck2)
    = Loaded ck2 /\
  run_ops (run_ops m (save_ops p ck1)) (save_ops q ck2) !! temp_path p = None /\
  run_ops (run_ops m (save_ops p ck1)) (save_ops q ck2) !! temp_path q = None.
Proof.
  assert (Htt : temp_path p <> temp_path q) by (intros H; by apply temp_path_inj in H).
  split; [|split; [|split]].
  - unfold load. rewrite !save_lookup.
    rewrite (decide_False _ _ Hpq), (decide_False _ _ Hp), decide_True by done.
    rewrite decode_encode. by rewrite String.eqb_refl.
  - unfold load. rewrite save_lookup, decide_True by done.
    rewrite decode_encode. by rewrite String.eqb_refl.
  - rewrite !save_lookup.
    repeat case_decide; try done; try congruence.
    exfalso. by eapply temp_path_ne.
  - rewrite save_lookup.
    repeat case_decide; try done; try congruence.
    exfalso. by eapply temp_path_ne.
Qed.

Lemma saves_do_not_interfere_witness :
  "outdir/a_checkpoint" <> "outdir/b_checkpoint" /\
  "outdir/b_checkpoint" <> temp_path "outdir/a_checkpoint" /\
  "outdir/a_checkpoint" <> temp_path "outdir/b_checkpoint" /\
  load (run_ops (run_ops stored (save_ops "outdir/a_checkpoint" old_checkpoint))
          (save_ops "outdir/b_checkpoint" (mk_checkpoint "run-b" 7 [9]%Z)))
    "outdir/a_checkpoint" "run-a" = Loaded old_checkpoint.
Proof.
  assert (H1 : "outdir/a_checkpoint" <> "outdir/b_checkpoint") by discriminate.
  assert (H2 : "outdir/b_checkpoint" <> temp_path "outdir/a_checkpoint")
    by (vm_compute; discriminate).
  assert (H3 : "outdir/a_checkpoint" <> temp_path "outdir/b_checkpoint")
    by (vm_compute; discriminate).
  split; [exact H1|]. split; [exact H2|]. split; [exact H3|].
  exact (proj1 (saves_do_not_interfere stored _ _ old_checkpoint
                  (mk_checkpoint "run-b" 7 [9]%Z) H1 H2 H3)).
Defined.

End CheckpointExtras.

Module ResultIOExtras.
Import Container ContainerFacts ResultIO StringFacts.

(** A Result written to [outdir/label_result.h5] is read back by
    [read_in_result], whether the file is given by [outdir] and [label] or
    by its name, whatever else the storage holds. *)
Theorem read_in_result_after_save (files : gmap string h5node)
    (outdir label : string) (r : Result) :
  read_in_result (<[result_file_name outdir label := save_result r]> files)
    (Some outdir) (Some label) None = inr r /\
  read_in_result (<[result_file_name outdir label := save_result r]> files)
    None None (Some (result_file_name outdir label)) = inr r.
Proof.
  split; cbn [read_in_result]; rewrite lookup_insert_eq; by rewrite read_save.
Qed.

End ResultIOExtras.

Module GroupFacts.
Import Container ContainerFacts.

Lemma assoc_elem k v ch : assoc k ch = Some v -> (k, v) ∈ ch.
Proof.
  induction ch as [|[k' v'] ch IH]; cbn [assoc]; [done|].
  destruct (String.eqb k k') eqn:E.
  - apply String.eqb_eq in E. intros [= <-]. subst. apply elem_of_cons. by left.
  - intros H. apply elem_of_cons. right. by apply IH.
Qed.

Lemma assoc_None k ch : k ∉ map fst ch -> assoc k ch = None.
Proof.
  induction ch as [|[k' v'] ch IH]; cbn [assoc map fst]; [done|].
  intros Hk. apply not_elem_of_cons in Hk as [Hne Hk].
  apply String.eqb_neq in Hne. rewrite Hne. by apply IH.
Qed.

Lemma elem_assoc k v ch :
  NoDup (map fst ch) -> (k, v) ∈ ch -> assoc k ch = Some v.
Proof.
  induction ch as [|[k' v'] ch IH]; cbn [assoc map fst]; intros Hnd Hin.
  - by apply not_elem_of_nil in Hin.
  - apply NoDup_cons in Hnd as [Hk' Hnd].
    apply elem_of_cons in Hin as [Heq|Hin].
    + injection Heq as -> ->. by rewrite String.eqb_refl.
    + destruct (String.eqb k k') eqn:E; [|by apply IH].
      apply String.eqb_eq in E. subst. exfalso. apply Hk'.
      apply list_elem_of_In. apply (in_map fst ch (k', v)).
      by apply list_elem_of_In.
Qed.

(** With unique member names, looking a member up does not depend on the
    order of the members. *)
Lemma assoc_perm ch1 ch2 k :
  NoDup (map fst ch1) -> ch1 ≡ₚ ch2 -> assoc k ch1 = assoc k ch2.
Proof.
  intros Hnd Hp.
  assert (Hnd2 : NoDup (map fst ch2)).
  { by rewrite <- (Permutation_map fst Hp). }
  destruct (assoc k ch1) as [v|] eqn:E.
  - symmetry. apply elem_assoc; [done|]. rewrite <- Hp. by apply assoc_elem.
  - symmetry. apply assoc_None. intros Hk. rewrite <- (Permutation_map fst Hp) in Hk.
    apply list_elem_of_In, in_map_iff in Hk as [[k' v] [Hk Hin]].
    cbn in Hk. subst k'. apply list_elem_of_In in Hin.
    apply (elem_assoc _ _ _ Hnd) in Hin. congruence.
Qed.

Lemma dec_items_ext {A} (g : h5node -> option A) ch1 ch2 :
  (forall k, assoc k ch1 = assoc k ch2) ->
  forall i n, dec_items g ch1 i n = dec_items g ch2 i n.
Proof.
  intros H i n. revert i. induction n as [|n IH]; intros i; cbn [dec_items]; [done|].
  by rewrite H, IH.
Qed.

Lemma enc_items_keys {A} (f : A -> h5node) i l k :
  k ∈ map fst (enc_items f i l) -> exists j, i <= j /\ k = item_key j.
Proof.
  revert i. induction l as [|x l IH]; intros i Hk; cbn [enc_items map fst] in Hk.
  - by apply not_elem_of_nil in Hk.
  - apply elem_of_cons in Hk as [->|Hk].
    + exists i. split; [lia|done].
    + destruct (IH (S i) Hk) as (j & Hj & ->). exists j. split; [lia|done].
Qed.

Lemma enc_items_nodup {A} (f : A -> h5node) i l : NoDup (map fst (enc_items f i l)).
Proof.
  revert i. induction l as [|x l IH]; intros i; cbn [enc_items map fst].
  - constructor.
  - constructor; [|apply IH].
    intros Hk. apply enc_items_keys in Hk as (j & Hj & Heq).
    apply item_key_inj in Heq. lia.
Qed.

Lemma read_result_ext ch1 ch2 :
  (forall k, assoc k ch1 = assoc k ch2) ->
  read_result (H5Group GDict ch1) = read_result (H5Group GDict ch2).
Proof. intros H. cbn [read_result]. by rewrite !H. Qed.

End GroupFacts.

Module ContainerExtras.
Import Container ContainerFacts Groups GroupFacts.

(** Loading a stored list does not depend on the order in which the file
    lists the members [i0], [i1], ... of its group (HDF5 lists them
    alphabetically, [i10] before [i2]): any order of the members of an
    encoded list decodes to the list, in index order. *)
Theorem dec_list_any_member_order {A} (f : A -> h5node) (g : h5node -> option A)
    (Hgf : forall x, g (f x) = Some x) (l : list A) (ch : list (string * h5node))
    (Hperm : ch ≡ₚ enc_items f 0 l) :
  dec_list g (H5Group GList ch) = Some l.
Proof.
  cbn [dec_list]. rewrite (Permutation_length Hperm).
  rewrite (dec_items_ext g ch (enc_items f 0 l)).
  - exact (dec_list_enc f g Hgf l).
  - intros k. symmetry. apply assoc_perm; [apply enc_items_nodup|by symmetry].
Qed.

Lemma dec_list_any_member_order_witness :
  (forall x, dec_str (enc_str x) = Some x) /\
  rev (enc_items enc_str 0 ["dec"; "psi"; "a_2"]) ≡ₚ enc_items enc_str 0 ["dec"; "psi"; "a_2"] /\
  dec_list dec_str (H5Group GList (rev (enc_items enc_str 0 ["dec"; "psi"; "a_2"])))
    = Some ["dec"; "psi"; "a_2"].
Proof.
  assert (H1 : forall x, dec_str (enc_str x) = Some x) by (intros x; reflexivity).
  assert (H2 : rev (enc_items enc_str 0 ["dec"; "psi"; "a_2"])
                 ≡ₚ enc_items enc_str 0 ["dec"; "psi"; "a_2"])
    by apply Permutation_rev.
  split; [exact H1|]. split; [exact H2|].
  exact (dec_list_any_member_order enc_str dec_str H1 _ _ H2).
Defined.

(** Reading a Result does not depend on the order of the top-level members
    of the file: any order of the members of a saved Result reads back as
    that Result. *)
Theorem read_result_any_member_order (r : Result) (ch : list (string * h5node))
    (Hperm : ch ≡ₚ members (save_result r)) :
  read_result (H5Group GDict ch) = Some r.
Proof.
  assert (Hnd : NoDup (map fst (members (save_result r)))).
  { apply (bool_decide_unpack _). vm_compute. exact I. }
  rewrite (read_result_ext ch (members (save_result r))).
  - exact (read_save r).
  - intros k. symmetry. apply assoc_perm; [done|by symmetry].
Qed.

Lemma read_result_any_member_order_witness :
  rev (members (save_result example_result)) ≡ₚ members (save_result example_result) /\
  read_result (H5Group GDict (rev (members (save_result example_result))))
    = Some example_result.
Proof.
  assert (H : rev (members (save_result example_result))
                ≡ₚ members (save_result example_result))
    by apply Permutation_rev.
  split; [exact H|].
  exact (read_result_any_member_order example_result _ H).
Defined.

End ContainerExtras.
